(** * Timed message buffer and intro screen of magog

    Shallow embedding of [src/ui/message_buffer.hpp] (the [Message_Buffer]
    class and its [Message_String] entries) and of [Intro_Screen::key_event]
    and [Intro_Screen::draw] ([src/unnamed/part_000]).

    The C++ [float] fields are modelled as rationals [Q]: only additions,
    [max] and comparisons are performed on them.  The [std::list] of
    messages and the [std::queue] of captions are lists whose head is the
    front.  The bodies of the [Message_Buffer] methods live in
    [message_buffer.cpp], which is not part of the sources; they are
    modelled from the spec and marked as such. *)

From Stdlib Require Import Rbase Rtrigo1.
From Stdlib Require Import QArith Qminmax List String Arith Lia Lqa Sorting.Sorted.
Import ListNotations.

Open Scope Q_scope.

Module Message_String.
(** [struct Message_String { std::string text; float time_read; }]:
    [time_read] is the clock time at which the entry has been read
    (its scheduled clear time). *)
Record t := mk { text : string; time_read : Q }.
End Message_String.

(** An RGB colour ([util/color.hpp] is not in the sources; only its
    identity matters here). *)
Record Color := mkColor { red : nat; green : nat; blue : nat }.

(** One call of [my_draw_text(const Vec2i& pos, const char* txt)] on the
    external text renderer, together with the colours it draws with. *)
Record Draw_Call := mkDraw {
  dc_pos : Z * Z;
  dc_text : string;
  dc_text_color : Color;
  dc_edge_color : Color
}.

Module Message_Buffer.

(** The data members of [class Message_Buffer]. *)
Record t := mk {
  text_color : Color;
  edge_color : Color;
  clock : Q;
  read_new_text_time : Q;
  letter_read_duration : Q;
  messages : list Message_String.t;
  captions : list Message_String.t
}.

Definition set_read_new_text_time (s : t) (v : Q) : t :=
  mk (text_color s) (edge_color s) (clock s) v (letter_read_duration s)
     (messages s) (captions s).

Section Buffer.

(** Modelled from the spec: the minimum floor of the reading-time
    estimate of [time_read] (in [message_buffer.cpp], not in the
    sources). *)
Variable min_read_duration : Q.

(** Modelled from the spec: the reading duration of a text, its length
    in bytes times [letter_read_duration], with the minimum floor. *)
Definition read_duration (letter_read_duration : Q) (added_text : string) : Q :=
  Qmax min_read_duration
    (inject_Z (Z.of_nat (String.length added_text)) * letter_read_duration).

(** Modelled from the spec: the body of [float time_read(std::string
    added_text)] (message_buffer.cpp).  Its header comment: "Update the
    total time when texts will be read and return the time the user should
    have read added_text."  Reading starts at
    [max(clock, read_new_text_time)]. *)
Definition time_read (s : t) (added_text : string) : Q * t :=
  let when := Qmax (clock s) (read_new_text_time s)
              + read_duration (letter_read_duration s) added_text in
  (when, set_read_new_text_time s when).

(** Modelled from the spec: the body of [void add_msg(std::string str)]
    (message_buffer.cpp), pushing to the back of [messages]. *)
Definition add_msg (s : t) (str : string) : t :=
  let (when, s') := time_read s str in
  mk (text_color s') (edge_color s') (clock s') (read_new_text_time s')
     (letter_read_duration s')
     (messages s' ++ [Message_String.mk str when]) (captions s').

(** Modelled from the spec: the body of [void add_caption(std::string str)]
    (message_buffer.cpp), pushing to the back of [captions]. *)
Definition add_caption (s : t) (str : string) : t :=
  let (when, s') := time_read s str in
  mk (text_color s') (edge_color s') (clock s') (read_new_text_time s')
     (letter_read_duration s')
     (messages s') (captions s' ++ [Message_String.mk str when]).

(** Modelled from the spec: the log eviction of [update]
    (message_buffer.cpp), popping messages from the front while their
    [time_read] has passed. *)
Fixpoint drop_read (now : Q) (l : list Message_String.t) : list Message_String.t :=
  match l with
  | [] => []
  | m :: rest =>
      if Qle_bool (Message_String.time_read m) now then drop_read now rest else l
  end.

(** Modelled from the spec: the caption eviction of [update]
    (message_buffer.cpp), popping the front caption if it has been read. *)
Definition pop_read_caption (now : Q) (q : list Message_String.t) : list Message_String.t :=
  match q with
  | [] => []
  | c :: rest => if Qle_bool (Message_String.time_read c) now then rest else q
  end.

(** Modelled from the spec: the body of [void update(float
    interval_seconds)] (message_buffer.cpp): advance the clock, then evict. *)
Definition update (s : t) (interval_seconds : Q) : t :=
  let now := clock s + interval_seconds in
  mk (text_color s) (edge_color s) now (read_new_text_time s)
     (letter_read_duration s)
     (drop_read now (messages s)) (pop_read_caption now (captions s)).

(** Modelled from the spec: the constructor [Message_Buffer(Fonter_System&)]
    (message_buffer.cpp) starts both times at 0. *)
Definition init (fonter_text_color fonter_edge_color : Color)
    (letter_read_duration : Q) : t :=
  mk fonter_text_color fonter_edge_color 0 0 letter_read_duration [] [].

End Buffer.
End Message_Buffer.

Module Draw.
Import Message_Buffer.

(** Drawing runs against the buffer object ([this]) and emits renderer
    calls: a state monad over the buffer with an output of draw calls. *)
Definition M (A : Type) : Type := Message_Buffer.t -> A * Message_Buffer.t * list Draw_Call.

Definition ret {A} (a : A) : M A := fun s => (a, s, []).

Definition bind {A B} (m : M A) (k : A -> M B) : M B :=
  fun s => let '(a, s1, o1) := m s in
           let '(b, s2, o2) := k a s1 in (b, s2, o1 ++ o2).

Notation "x <- m ;; k" := (bind m (fun x => k))
  (at level 61, m at next level, right associativity).

Definition get : M Message_Buffer.t := fun s => (s, s, []).

(** [void my_draw_text(const Vec2i& pos, const char* txt)]. *)
Definition my_draw_text (pos : Z * Z) (txt : string) : M unit :=
  fun s => (tt, s, [mkDraw pos txt (text_color s) (edge_color s)]).

Section Layout.
(** The on-screen layout is a rendering concern: the position of the
    [i]-th log line and the fixed caption position. *)
Variable msg_pos : nat -> Z * Z.
Variable caption_pos : Z * Z.

Fixpoint draw_messages (i : nat) (l : list Message_String.t) : M unit :=
  match l with
  | [] => ret tt
  | m :: rest =>
      _ <- my_draw_text (msg_pos i) (Message_String.text m) ;;
      draw_messages (S i) rest
  end.

Definition draw_caption (q : list Message_String.t) : M unit :=
  match q with
  | [] => ret tt
  | c :: _ => my_draw_text caption_pos (Message_String.text c)
  end.

(** Modelled from the spec: the body of [void draw()] (message_buffer.cpp):
    every log line, then the front caption only. *)
Definition draw : M unit :=
  s <- get ;;
  _ <- draw_messages 0 (messages s) ;;
  draw_caption (captions s).

End Layout.
End Draw.

Module Trace.
Import Message_Buffer.

(** The calls a caller can make on a [Message_Buffer]. *)
Inductive op :=
| Add_msg (str : string)
| Add_caption (str : string)
| Update (interval_seconds : Q)
| Draw_op.

Section Run.
Variable min_read_duration : Q.
Variable msg_pos : nat -> Z * Z.
Variable caption_pos : Z * Z.

Definition step (s : Message_Buffer.t) (o : op) : Message_Buffer.t :=
  match o with
  | Add_msg str => add_msg min_read_duration s str
  | Add_caption str => add_caption min_read_duration s str
  | Update dt => update s dt
  | Draw_op => let '(_, s', _) := Draw.draw msg_pos caption_pos s in s'
  end.

Definition run (s : Message_Buffer.t) (ops : list op) : Message_Buffer.t :=
  fold_left step ops s.

(** Every [update] of the trace has a non-negative interval. *)
Definition interval_ok (o : op) : Prop :=
  match o with Update dt => 0 <= dt | _ => True end.

Definition trace_ok (ops : list op) : Prop := Forall interval_ok ops.

Definition is_add (o : op) : Prop :=
  match o with Add_msg _ | Add_caption _ => True | _ => False end.

(** The same run, also recording every caption entry pushed, in order. *)
Definition step_hist (sh : Message_Buffer.t * list Message_String.t) (o : op)
    : Message_Buffer.t * list Message_String.t :=
  let (s, h) := sh in
  match o with
  | Add_caption str =>
      (step s o, h ++ [Message_String.mk str (fst (time_read min_read_duration s str))])
  | _ => (step s o, h)
  end.

Definition run_hist (s : Message_Buffer.t) (ops : list op)
    : Message_Buffer.t * list Message_String.t :=
  fold_left step_hist ops (s, []).

End Run.
End Trace.

Module Intro_Screen.
(** The game-loop calls of [Intro_Screen]: [Game_Loop::get().pop_state()],
    [push_state(new Game_Screen)], [quit()], and [add_wave] (identified by
    the sine factor of its wave function and its duration). *)
Inductive Screen := Game_Screen.

Inductive effect :=
| Pop_state
| Push_state (scr : Screen)
| Quit
| Add_wave (sin_factor : Z) (duration : Z).

(** [void Intro_Screen::key_event(int keysym, int printable)]. *)
Definition key_event (keysym printable : Z) : list effect :=
  if Z.eqb keysym 27 then [Pop_state]
  else if Z.eqb keysym 110 (* 'n' *) then [Pop_state; Push_state Game_Screen]
  else if Z.eqb keysym 49 (* '1' *) then [Add_wave 5000 2]
  else if Z.eqb keysym 50 (* '2' *) then [Add_wave 7000 2]
  else [].

(** [void Intro_Screen::draw()]: the GL and text calls are left out; the
    two [im_button] results are inputs. *)
Definition draw (new_game_clicked exit_clicked : bool) : list effect :=
  (if new_game_clicked then [Pop_state; Push_state Game_Screen] else [])
  ++ (if exit_clicked then [Quit] else []).
End Intro_Screen.

Module Game_Loop.
Import Intro_Screen.

(** The screens that can sit on the game loop's state stack. *)
Inductive state_screen :=
| Intro
| Game
| Other (id : nat).

(** Modelled from the spec: [Game_Loop] (not in the sources), an
    externally owned stack of game states, top first, a running flag for
    [quit()], and the waves handed to the sound output by [add_wave]. *)
Record t := mk {
  states : list state_screen;
  running : bool;
  waves : list (Z * Z)
}.

(** Modelled from the spec: [pop_state()] removes the top state,
    [push_state(new Game_Screen)] puts a game screen on top, [quit()] stops
    the loop, [add_wave(f, duration)] queues a wave.  What the loop does
    once its stack is empty is not modelled: [running] only records
    [quit()] calls. *)
Definition apply_effect (g : t) (e : effect) : t :=
  match e with
  | Pop_state => mk (tl (states g)) (running g) (waves g)
  | Push_state Game_Screen => mk (Game :: states g) (running g) (waves g)
  | Quit => mk (states g) false (waves g)
  | Add_wave f d => mk (states g) (running g) (waves g ++ [(f, d)])
  end.

Definition apply_effects (g : t) (es : list effect) : t :=
  fold_left apply_effect es g.

(** The wave functions of [key_event]: [[](float t) { return sin(t * f) / 10.0; }]
    for the sine factor [f] (floats read as reals). *)
Definition wave_of (sin_factor : Z) (t : R) : R :=
  (sin (t * IZR sin_factor) / 10)%R.
End Game_Loop.

Import Message_Buffer Trace.

(** Concrete colours and layout for the scenarios. *)
Definition white : Color := mkColor 255 255 255.
Definition black : Color := mkColor 0 0 0.
Definition origin_layout (_ : nat) : Z * Z := (0, 0)%Z.

(** Invariants of the reachable states. *)

Definition read_order (a b : Message_String.t) : Prop :=
  Message_String.time_read a <= Message_String.time_read b.

(** The log is ordered by [time_read] and nothing in it is scheduled after
    the horizon. *)
Definition log_ok (s : Message_Buffer.t) : Prop :=
  StronglySorted read_order (messages s)
  /\ Forall (fun m => Message_String.time_read m <= read_new_text_time s) (messages s).

(** The caption queue is what is left of the pushed captions [h] once the
    first [k] are gone, and those [k] have all been read by now. *)
Definition caption_ok (sh : Message_Buffer.t * list Message_String.t) : Prop :=
  let (s, h) := sh in
  exists k, (k <= List.length h)%nat /\ captions s = skipn k h
    /\ forall j c, (j < k)%nat -> nth_error h j = Some c ->
         Message_String.time_read c <= clock s.

(** * Properties *)

Lemma Qmax_plus_ge_l (x y d : Q) : 0 <= d -> x <= Qmax x y + d.
Proof.
  intros Hd. apply Qle_trans with (Qmax x y + 0).
  - rewrite Qplus_0_r. apply Q.le_max_l.
  - apply Qplus_le_r. exact Hd.
Qed.

Lemma Qmax_plus_ge_r (x y d : Q) : 0 <= d -> y <= Qmax x y + d.
Proof.
  intros Hd. apply Qle_trans with (Qmax x y + 0).
  - rewrite Qplus_0_r. apply Q.le_max_r.
  - apply Qplus_le_r. exact Hd.
Qed.

Lemma read_duration_nonneg (floor lrd : Q) (str : string) :
  0 <= floor -> 0 <= read_duration floor lrd str.
Proof.
  intros Hf. unfold read_duration. eapply Qle_trans; [exact Hf | apply Q.le_max_l].
Qed.

Lemma draw_messages_frame msg_pos (l : list Message_String.t) :
  forall i s, exists o, Draw.draw_messages msg_pos i l s = (tt, s, o).
Proof.
  induction l as [| m rest IH]; intros i s; simpl.
  - exists []. reflexivity.
  - destruct (IH (S i) s) as [o Ho].
    unfold Draw.bind, Draw.my_draw_text. rewrite Ho. eexists. reflexivity.
Qed.

Lemma draw_shape msg_pos caption_pos (s : Message_Buffer.t) :
  exists om, Draw.draw msg_pos caption_pos s
             = (tt, s, om ++ match captions s with
                             | [] => []
                             | c :: _ => [mkDraw caption_pos (Message_String.text c)
                                                 (text_color s) (edge_color s)]
                             end).
Proof.
  destruct (draw_messages_frame msg_pos (messages s) 0 s) as [om Hom].
  exists om. unfold Draw.draw, Draw.bind, Draw.get. rewrite Hom.
  unfold Draw.draw_caption, Draw.ret, Draw.my_draw_text.
  destruct (captions s); simpl; rewrite ?app_nil_r; reflexivity.
Qed.

Lemma draw_messages_log msg_pos (l : list Message_String.t) :
  forall i s, exists om, Draw.draw_messages msg_pos i l s = (tt, s, om)
    /\ map dc_text om = map Message_String.text l
    /\ forall j c, nth_error om j = Some c -> dc_pos c = msg_pos (i + j)%nat.
Proof.
  induction l as [| m rest IH]; intros i s; simpl.
  - exists []. split; [reflexivity | split; [reflexivity |]].
    intros j c Hc. destruct j; discriminate.
  - destruct (IH (S i) s) as [o [Ho [Ht Hp]]].
    unfold Draw.bind, Draw.my_draw_text. rewrite Ho.
    eexists. split; [reflexivity |]. split; [simpl; f_equal; exact Ht |].
    intros [| j] c Hc; simpl in Hc.
    + inversion Hc; subst. simpl. f_equal. lia.
    + rewrite (Hp j c Hc). f_equal. lia.
Qed.

(** The output of [draw]: one call per log line, in order, with that line's
    text at its layout position, then at most the front caption. *)
Lemma draw_shape_log msg_pos caption_pos (s : Message_Buffer.t) :
  exists om, Draw.draw msg_pos caption_pos s
             = (tt, s, om ++ match captions s with
                             | [] => []
                             | c :: _ => [mkDraw caption_pos (Message_String.text c)
                                                 (text_color s) (edge_color s)]
                             end)
    /\ map dc_text om = map Message_String.text (messages s)
    /\ forall j c, nth_error om j = Some c -> dc_pos c = msg_pos j.
Proof.
  destruct (draw_messages_log msg_pos (messages s) 0 s) as [om [Hom [Ht Hp]]].
  exists om. split; [| split; [exact Ht | exact Hp]].
  unfold Draw.draw, Draw.bind, Draw.get. rewrite Hom.
  unfold Draw.draw_caption, Draw.ret, Draw.my_draw_text.
  destruct (captions s); simpl; rewrite ?app_nil_r; reflexivity.
Qed.

(** C10: in [Intro_Screen], the key 'n' and a click on "New Game" both pop
    the current state and then push a new [Game_Screen]; Escape only pops. *)
Theorem intro_new_game_paths (printable : Z) :
  Intro_Screen.key_event 110 printable
    = Intro_Screen.draw true false
  /\ Intro_Screen.key_event 110 printable
    = [Intro_Screen.Pop_state; Intro_Screen.Push_state Intro_Screen.Game_Screen]
  /\ Intro_Screen.key_event 27 printable = [Intro_Screen.Pop_state].
Proof. repeat split. Qed.

(** C1 (counterexample): [time_read] returns the scheduled clear time, not
    the duration; adding its result to the start time overshoots once the
    horizon is ahead of zero. *)
Lemma add_msg_time_read_is_not_duration :
  let s1 := add_msg 1 (init white black (1#20)) "a" in
  messages (add_msg 1 s1 "b")
    = messages s1 ++ [Message_String.mk "b" (fst (time_read 1 s1 "b"))]
  /\ ~ (Message_String.time_read (Message_String.mk "b" (fst (time_read 1 s1 "b")))
        == Qmax (clock s1) (read_new_text_time s1) + fst (time_read 1 s1 "b")).
Proof.
  split.
  - reflexivity.
  - vm_compute. discriminate.
Qed.

(** C1 (amended): [add_msg] and [add_caption] schedule the new entry at
    [max(clock, read_new_text_time) + duration], the duration being the
    length-based reading estimate; [time_read] returns that time and stores
    it in [read_new_text_time]; the entry goes to the back of the log,
    resp. of the caption queue, and nothing else changes. *)
Theorem add_schedules_after_horizon (floor : Q) (s : Message_Buffer.t) (str : string) :
  let when := Qmax (clock s) (read_new_text_time s)
              + read_duration floor (letter_read_duration s) str in
  fst (time_read floor s str) = when
  /\ read_new_text_time (snd (time_read floor s str)) = when
  /\ messages (add_msg floor s str) = messages s ++ [Message_String.mk str when]
  /\ read_new_text_time (add_msg floor s str) = when
  /\ clock (add_msg floor s str) = clock s
  /\ captions (add_msg floor s str) = captions s
  /\ captions (add_caption floor s str) = captions s ++ [Message_String.mk str when]
  /\ read_new_text_time (add_caption floor s str) = when
  /\ clock (add_caption floor s str) = clock s
  /\ messages (add_caption floor s str) = messages s.
Proof. repeat split. Qed.

(** C9: the reading duration is at least the floor and is
    [max(floor, length * letter_read_duration)] for every text, the empty
    one included; with [letter_read_duration = 0.05] and floor [1.0],
    [add_msg("hi")] at clock 0 is scheduled at [1.0], survives
    [update(0.5)] and is evicted by a further [update(0.6)]. *)
Theorem read_duration_floor_and_scenario :
  (forall floor lrd str,
      floor <= read_duration floor lrd str
      /\ read_duration floor lrd str
         = Qmax floor (inject_Z (Z.of_nat (String.length str)) * lrd)
      /\ forall s, letter_read_duration s = lrd ->
           fst (time_read floor s str)
           = Qmax (clock s) (read_new_text_time s) + read_duration floor lrd str)
  /\ (let s1 := add_msg 1 (init white black (5#100)) "hi" in
      let s2 := update s1 (5#10) in
      let s3 := update s2 (6#10) in
      clock s1 == 0
      /\ read_duration 1 (5#100) "hi" == 1
      /\ map Message_String.time_read (messages s1) = [fst (time_read 1 (init white black (5#100)) "hi")]
      /\ fst (time_read 1 (init white black (5#100)) "hi") == 1
      /\ messages s2 = messages s1
      /\ clock s3 == 11#10
      /\ messages s3 = []).
Proof.
  split.
  - intros floor lrd str. repeat split.
    + apply Q.le_max_l.
    + intros s Hl. unfold time_read. simpl. rewrite Hl. reflexivity.
  - vm_compute. repeat split; discriminate.
Qed.

Lemma time_read_ge_horizon (floor : Q) (s : Message_Buffer.t) (str : string) :
  0 <= floor -> read_new_text_time s <= fst (time_read floor s str).
Proof.
  intros Hf. apply Qmax_plus_ge_r, read_duration_nonneg, Hf.
Qed.

(** C4: with a non-negative floor, every [add_msg] or [add_caption] call
    leaves [read_new_text_time] at least where it was, so it is
    non-decreasing along any sequence of such calls. *)
Theorem horizon_monotone (floor : Q) msg_pos caption_pos (Hf : 0 <= floor) :
  (forall s o, is_add o ->
     read_new_text_time s <= read_new_text_time (step floor msg_pos caption_pos s o))
  /\ (forall ops s, Forall is_add ops ->
       read_new_text_time s <= read_new_text_time (run floor msg_pos caption_pos s ops)).
Proof.
  assert (Hstep : forall s o, is_add o ->
     read_new_text_time s <= read_new_text_time (step floor msg_pos caption_pos s o)).
  { intros s [str | str | dt |] Ho; try contradiction; simpl;
      apply (time_read_ge_horizon floor s str Hf). }
  split; [exact Hstep |].
  intros ops. induction ops as [| o rest IH]; intros s Hall; simpl.
  - apply Qle_refl.
  - inversion Hall as [| ? ? Ho Hrest]; subst.
    eapply Qle_trans; [apply (Hstep s o Ho) | apply IH, Hrest].
Qed.

(** ** Eviction from the message log *)

Lemma StronglySorted_snoc (l : list Message_String.t) (x : Message_String.t) :
  StronglySorted read_order l -> Forall (fun m => read_order m x) l ->
  StronglySorted read_order (l ++ [x]).
Proof.
  induction l as [| a l IH]; intros Hs Hx; simpl.
  - repeat constructor.
  - inversion Hs as [| ? ? Hs' Ha]; subst. inversion Hx as [| ? ? Hax Hlx]; subst.
    constructor; [apply IH; assumption |].
    apply Forall_app; split; [assumption | constructor; [assumption | constructor]].
Qed.

Lemma drop_read_suffix (now : Q) (l : list Message_String.t) :
  exists pre, l = pre ++ drop_read now l.
Proof.
  induction l as [| m rest [pre IH]]; simpl.
  - exists []. reflexivity.
  - destruct (Qle_bool (Message_String.time_read m) now).
    + exists (m :: pre). simpl. rewrite <- IH. reflexivity.
    + exists []. reflexivity.
Qed.

Lemma log_ok_step (floor : Q) msg_pos caption_pos (s : Message_Buffer.t) (o : op) :
  0 <= floor -> log_ok s -> log_ok (step floor msg_pos caption_pos s o).
Proof.
  intros Hf [Hs Hh]. destruct o as [str | str | dt |]; simpl.
  - pose proof (time_read_ge_horizon floor s str Hf) as Hge. split; simpl.
    + apply StronglySorted_snoc; [exact Hs |].
      eapply Forall_impl; [| exact Hh]. intros m Hm. unfold read_order.
      eapply Qle_trans; [exact Hm | exact Hge].
    + apply Forall_app; split.
      * eapply Forall_impl; [| exact Hh]. intros m Hm.
        eapply Qle_trans; [exact Hm | exact Hge].
      * constructor; [apply Qle_refl | constructor].
  - pose proof (time_read_ge_horizon floor s str Hf) as Hge. split; simpl.
    + exact Hs.
    + eapply Forall_impl; [| exact Hh]. intros m Hm.
      eapply Qle_trans; [exact Hm | exact Hge].
  - destruct (drop_read_suffix (clock s + dt) (messages s)) as [pre Hpre].
    unfold update; split; simpl.
    + rewrite Hpre in Hs. clear Hpre Hh. induction pre as [| a pre IH]; simpl in Hs.
      * exact Hs.
      * apply IH. inversion Hs; assumption.
    + rewrite Hpre in Hh. apply Forall_app in Hh. apply Hh.
  - destruct (draw_shape msg_pos caption_pos s) as [om Hom]. rewrite Hom.
    split; assumption.
Qed.

Lemma log_ok_run (floor : Q) msg_pos caption_pos (ops : list op) :
  0 <= floor -> forall s, log_ok s -> log_ok (run floor msg_pos caption_pos s ops).
Proof.
  intros Hf. induction ops as [| o rest IH]; intros s Hs; simpl.
  - exact Hs.
  - apply IH, log_ok_step; assumption.
Qed.

Lemma log_ok_init tc ec lrd : log_ok (init tc ec lrd).
Proof. split; constructor. Qed.

Lemma filter_all_false (p : Message_String.t -> bool) (l : list Message_String.t) :
  Forall (fun m => p m = false) l -> filter p l = [].
Proof.
  induction 1 as [| m rest Hm _ IH]; simpl; [reflexivity | rewrite Hm; exact IH].
Qed.

Lemma filter_all_true (p : Message_String.t -> bool) (l : list Message_String.t) :
  Forall (fun m => p m = true) l -> filter p l = l.
Proof.
  induction 1 as [| m rest Hm _ IH]; simpl; [reflexivity | rewrite Hm, IH; reflexivity].
Qed.

(** On an ordered log, popping the read prefix removes exactly the entries
    whose [time_read] has passed. *)
Lemma drop_read_sorted (now : Q) (l : list Message_String.t) :
  StronglySorted read_order l ->
  drop_read now l
    = filter (fun m => negb (Qle_bool (Message_String.time_read m) now)) l
  /\ l = filter (fun m => Qle_bool (Message_String.time_read m) now) l ++ drop_read now l.
Proof.
  induction 1 as [| m rest Hs IH Hm]; simpl; [split; reflexivity |].
  destruct IH as [IH1 IH2].
  case_eq (Qle_bool (Message_String.time_read m) now); intros Hle; simpl.
  - split; [exact IH1 | f_equal; exact IH2].
  - assert (Hlt : now < Message_String.time_read m).
    { apply Qnot_le_lt. intros H. apply Qle_bool_iff in H. congruence. }
    assert (Hall : Forall (fun x => now < Message_String.time_read x) rest).
    { eapply Forall_impl; [| exact Hm]. intros x Hx. eapply Qlt_le_trans; eassumption. }
    split.
    + f_equal. symmetry. apply filter_all_true.
      eapply Forall_impl; [| exact Hall]. intros x Hx.
      destruct (Qle_bool (Message_String.time_read x) now) eqn:E; [| reflexivity].
      apply Qle_bool_iff in E. exfalso. apply (Qlt_not_le _ _ Hx E).
    + rewrite filter_all_false; [reflexivity |].
      eapply Forall_impl; [| exact Hall]. intros x Hx.
      destruct (Qle_bool (Message_String.time_read x) now) eqn:E; [| reflexivity].
      apply Qle_bool_iff in E. exfalso. apply (Qlt_not_le _ _ Hx E).
Qed.

(** C2: in every state reachable from the constructor (non-negative
    intervals, non-negative floor), [update(dt)] sets the clock to
    [clock + dt] and removes from the log exactly the entries whose
    [time_read] is at most the new clock, and they form its head. *)
Theorem update_evicts_exactly_read (floor : Q) msg_pos caption_pos tc ec lrd
    (ops : list op) (dt : Q)
    (Hf : 0 <= floor) (Hops : trace_ok ops) (Hdt : 0 <= dt) :
  let s := run floor msg_pos caption_pos (init tc ec lrd) ops in
  let s' := update s dt in
  clock s' = clock s + dt
  /\ messages s'
     = filter (fun m => negb (Qle_bool (Message_String.time_read m) (clock s'))) (messages s)
  /\ messages s
     = filter (fun m => Qle_bool (Message_String.time_read m) (clock s')) (messages s)
       ++ messages s'.
Proof.
  intros s s'.
  destruct (log_ok_run floor msg_pos caption_pos ops Hf _ (log_ok_init tc ec lrd))
    as [Hs _].
  fold s in Hs.
  destruct (drop_read_sorted (clock s + dt) (messages s) Hs) as [H1 H2].
  split; [reflexivity | split; assumption].
Qed.

(** ** Eviction of captions and eventual eviction *)

(** C6: one [update(dt)] removes at most the front caption, and removes it
    exactly when its [time_read] is at most the new clock; the entries
    behind it stay. *)
Theorem update_pops_at_most_one_caption (s : Message_Buffer.t) (dt : Q) (Hdt : 0 <= dt) :
  let s' := update s dt in
  (captions s = [] -> captions s' = [])
  /\ (forall c rest, captions s = c :: rest ->
        (Message_String.time_read c <= clock s' -> captions s' = rest)
        /\ (clock s' < Message_String.time_read c -> captions s' = c :: rest)).
Proof.
  intros s'. unfold s', update; simpl. split.
  - intros H. rewrite H. reflexivity.
  - intros c rest H. rewrite H. simpl. split; intros Hc.
    + apply Qle_bool_iff in Hc. rewrite Hc. reflexivity.
    + destruct (Qle_bool (Message_String.time_read c) (clock s + dt)) eqn:E;
        [| reflexivity].
      apply Qle_bool_iff in E. exfalso. apply (Qlt_not_le _ _ Hc E).
Qed.

Lemma drop_read_all (now : Q) (l : list Message_String.t) :
  (forall m, In m l -> Message_String.time_read m <= now) -> drop_read now l = [].
Proof.
  induction l as [| m rest IH]; intros H; simpl; [reflexivity |].
  rewrite (proj2 (Qle_bool_iff _ _) (H m (or_introl eq_refl))).
  apply IH. intros x Hx. apply H. right. exact Hx.
Qed.

Lemma le_fold_max (l : list Message_String.t) (m : Message_String.t) :
  In m l -> Message_String.time_read m <= fold_right Qmax 0 (map Message_String.time_read l).
Proof.
  induction l as [| a rest IH]; intros Hin; [destruct Hin |].
  destruct Hin as [<- | Hin]; simpl.
  - apply Q.le_max_l.
  - eapply Qle_trans; [apply IH, Hin | apply Q.le_max_r].
Qed.

Lemma zero_ticks_clear (n : nat) :
  forall s, messages s = [] -> (List.length (captions s) <= n)%nat ->
  (forall c, In c (captions s) -> Message_String.time_read c <= clock s) ->
  messages (fold_left update (repeat 0 n) s) = []
  /\ captions (fold_left update (repeat 0 n) s) = [].
Proof.
  induction n as [| n IH]; intros s Hm Hlen Hc; simpl.
  - split; [exact Hm | destruct (captions s); [reflexivity | simpl in Hlen; lia]].
  - apply IH; unfold update; simpl.
    + rewrite Hm. reflexivity.
    + destruct (captions s) as [| c rest]; simpl; [lia |].
      simpl in Hlen.
      rewrite (proj2 (Qle_bool_iff _ _)); [lia |].
      rewrite Qplus_0_r. apply Hc. left. reflexivity.
    + intros c Hin. rewrite Qplus_0_r.
      destruct (captions s) as [| c0 rest] eqn:E; [destruct Hin |].
      apply Hc. simpl in Hin.
      destruct (Qle_bool (Message_String.time_read c0) (clock s + 0)).
      * right. exact Hin.
      * exact Hin.
Qed.

(** C5: from any state, some finite sequence of [update] calls with
    non-negative intervals evicts every entry of the log and of the caption
    queue. *)
Theorem eventual_eviction (s : Message_Buffer.t) :
  exists dts : list Q,
    Forall (fun dt => 0 <= dt) dts
    /\ messages (fold_left update dts s) = []
    /\ captions (fold_left update dts s) = [].
Proof.
  set (top := fold_right Qmax 0 (map Message_String.time_read (messages s ++ captions s))).
  set (D := Qmax 0 (top - clock s)).
  exists (D :: repeat 0 (List.length (captions s))).
  assert (Htop : top <= clock s + D).
  { assert (HD : top - clock s <= D) by apply Q.le_max_r. lra. }
  assert (Hall : forall m, In m (messages s ++ captions s) ->
                 Message_String.time_read m <= clock s + D).
  { intros m Hin. eapply Qle_trans; [apply le_fold_max, Hin | exact Htop]. }
  split.
  - constructor; [apply Q.le_max_l |].
    induction (List.length (captions s)); simpl; constructor; [apply Qle_refl | assumption].
  - simpl. apply zero_ticks_clear; unfold update; simpl.
    + apply drop_read_all. intros m Hin. apply Hall, in_or_app. left. exact Hin.
    + destruct (captions s); simpl; [lia |].
      destruct (Qle_bool _ _); simpl; lia.
    + intros c Hin. apply Hall, in_or_app. right.
      destruct (captions s) as [| c0 rest]; [destruct Hin |].
      simpl in Hin. destruct (Qle_bool _ _); [right |]; exact Hin.
Qed.

(** ** Caption order *)

Lemma skipn_cons_next (k : nat) (h r : list Message_String.t) (c : Message_String.t) :
  skipn k h = c :: r -> nth_error h k = Some c /\ skipn (S k) h = r
                        /\ (S k <= List.length h)%nat.
Proof.
  revert h. induction k as [| k IH]; intros h Hk; destruct h as [| x h]; simpl in *;
    try discriminate.
  - inversion Hk; subst. repeat split. lia.
  - destruct (IH h Hk) as [H1 [H2 H3]]. repeat split; [exact H1 | exact H2 | lia].
Qed.

Lemma run_hist_fst (floor : Q) msg_pos caption_pos (ops : list op) :
  forall s h, fst (fold_left (step_hist floor msg_pos caption_pos) ops (s, h))
              = run floor msg_pos caption_pos s ops.
Proof.
  induction ops as [| o rest IH]; intros s h; simpl; [reflexivity |].
  destruct o; simpl; apply IH.
Qed.

Lemma caption_ok_step (floor : Q) msg_pos caption_pos (s : Message_Buffer.t)
    (h : list Message_String.t) (o : op) :
  interval_ok o -> caption_ok (s, h) ->
  caption_ok (step_hist floor msg_pos caption_pos (s, h) o).
Proof.
  intros Ho [k [Hk [Hq Hread]]]. destruct o as [str | str | dt |]; simpl.
  - exists k. repeat split; assumption.
  - exists k. repeat split.
    + rewrite length_app. lia.
    + simpl. rewrite Hq, skipn_app.
      replace (k - List.length h)%nat with 0%nat by lia. reflexivity.
    + intros j c Hj Hc. apply Hread with j; [exact Hj |].
      rewrite nth_error_app1 in Hc; [exact Hc | lia].
  - simpl in Ho. unfold update; simpl.
    assert (Hmono : forall c, Message_String.time_read c <= clock s ->
                              Message_String.time_read c <= clock s + dt).
    { intros c Hc. lra. }
    rewrite Hq. destruct (skipn k h) as [| c r] eqn:E; simpl.
    + exists k. repeat split; [exact Hk | symmetry; exact E |].
      intros j c Hj Hc. apply Hmono, Hread with j; assumption.
    + destruct (skipn_cons_next k h r c E) as [Hnth [Hnext Hlen]].
      destruct (Qle_bool (Message_String.time_read c) (clock s + dt)) eqn:Ec.
      * exists (S k). repeat split; [exact Hlen | symmetry; exact Hnext |].
        intros j c' Hj Hc'. destruct (Nat.eq_dec j k) as [-> | Hne].
        -- rewrite Hnth in Hc'. inversion Hc'; subst. apply Qle_bool_iff, Ec.
        -- apply Hmono, Hread with j; [lia | exact Hc'].
      * exists k. repeat split; [exact Hk | symmetry; exact E |].
        intros j c' Hj Hc'. apply Hmono, Hread with j; assumption.
  - destruct (draw_shape msg_pos caption_pos s) as [om Hom]. rewrite Hom.
    exists k. repeat split; assumption.
Qed.

Lemma caption_ok_run (floor : Q) msg_pos caption_pos (ops : list op) :
  trace_ok ops -> forall sh, caption_ok sh ->
  caption_ok (fold_left (step_hist floor msg_pos caption_pos) ops sh).
Proof.
  induction 1 as [| o rest Ho _ IH]; intros [s h] Hsh; simpl; [exact Hsh |].
  apply IH, caption_ok_step; assumption.
Qed.

(** C7: along any trace from the constructor with non-negative intervals,
    with [h] the captions pushed in order, the queue is [h] without a
    prefix of already-read captions; so when caption [n+1] is at the front,
    caption [n] has been read by the clock; and [draw] renders the log
    lines (one call per line, with its text) followed by the front caption
    only. *)
Theorem captions_fifo (floor : Q) msg_pos caption_pos tc ec lrd (ops : list op)
    (Hops : trace_ok ops) :
  let '(s, h) := run_hist floor msg_pos caption_pos (init tc ec lrd) ops in
  s = run floor msg_pos caption_pos (init tc ec lrd) ops
  /\ (exists k, captions s = skipn k h
        /\ forall j c, (j < k)%nat -> nth_error h j = Some c ->
             Message_String.time_read c <= clock s)
  /\ (forall n c, captions s <> [] -> captions s = skipn (S n) h ->
        nth_error h n = Some c -> Message_String.time_read c <= clock s)
  /\ (exists om, Draw.draw msg_pos caption_pos s
        = (tt, s, om ++ match captions s with
                        | [] => []
                        | c :: _ => [mkDraw caption_pos (Message_String.text c)
                                            (text_color s) (edge_color s)]
                        end)
        /\ map dc_text om = map Message_String.text (messages s)
        /\ forall j c, nth_error om j = Some c -> dc_pos c = msg_pos j).
Proof.
  pose proof (run_hist_fst floor msg_pos caption_pos ops (init tc ec lrd) []) as Hfst.
  pose proof (caption_ok_run floor msg_pos caption_pos ops Hops (init tc ec lrd, []))
    as Hok.
  unfold run_hist. destruct (fold_left _ ops _) as [s h] eqn:E.
  simpl in Hfst. specialize (Hok (ex_intro _ 0%nat (conj (le_n 0) (conj eq_refl
    (fun j c Hj _ => False_rect _ (Nat.nlt_0_r j Hj)))))).
  destruct Hok as [k [Hk [Hq Hread]]].
  split; [exact Hfst |]. split; [exists k; split; assumption |]. split.
  - intros n c Hne Hn Hc. apply Hread with n; [| exact Hc].
    assert (Hlen : List.length (skipn k h) = List.length (skipn (S n) h))
      by (rewrite <- Hq, <- Hn; reflexivity).
    rewrite !length_skipn in Hlen.
    assert (Hpos : (0 < List.length (skipn (S n) h))%nat)
      by (rewrite <- Hn; destruct (captions s); [congruence | simpl; lia]).
    rewrite length_skipn in Hpos. lia.
  - apply draw_shape_log.
Qed.

(** * Witnesses: the theorems above at concrete inputs *)

Ltac q_close := vm_compute; first [reflexivity | discriminate | exact I].

Ltac trace_close :=
  unfold trace_ok; repeat (apply Forall_cons; [simpl; try exact I; q_close |]);
  apply Forall_nil.

Lemma horizon_monotone_witness :
  0 <= 1
  /\ read_new_text_time (init white black (5#100))
     <= read_new_text_time (step 1 origin_layout (0, 0)%Z (init white black (5#100))
                                 (Add_msg "hi")).
Proof.
  split; [q_close |].
  apply (proj1 (horizon_monotone 1 origin_layout (0, 0)%Z ltac:(q_close))).
  exact I.
Defined.

Lemma update_evicts_exactly_read_witness :
  0 <= 1 /\ trace_ok [Add_msg "a"; Add_msg "b"] /\ 0 <= 3#2
  /\ (let s := run 1 origin_layout (0, 0)%Z (init white black (5#100))
                 [Add_msg "a"; Add_msg "b"] in
      let s' := update s (3#2) in
      clock s' = clock s + (3#2)
      /\ messages s'
         = filter (fun m => negb (Qle_bool (Message_String.time_read m) (clock s')))
                  (messages s)
      /\ messages s
         = filter (fun m => Qle_bool (Message_String.time_read m) (clock s')) (messages s)
           ++ messages s').
Proof.
  split; [q_close |]. split; [trace_close |]. split; [q_close |].
  apply (update_evicts_exactly_read 1 origin_layout (0, 0)%Z white black (5#100)
           [Add_msg "a"; Add_msg "b"] (3#2)); [q_close | trace_close | q_close].
Defined.

Lemma update_pops_at_most_one_caption_witness :
  0 <= 1#2
  /\ (let s := add_caption 1 (add_caption 1 (init white black (5#100)) "X") "Y" in
      let s' := update s (1#2) in
      (captions s = [] -> captions s' = [])
      /\ (forall c rest, captions s = c :: rest ->
            (Message_String.time_read c <= clock s' -> captions s' = rest)
            /\ (clock s' < Message_String.time_read c -> captions s' = c :: rest))).
Proof.
  split; [q_close |].
  apply (update_pops_at_most_one_caption
           (add_caption 1 (add_caption 1 (init white black (5#100)) "X") "Y") (1#2)).
  q_close.
Defined.

Lemma captions_fifo_witness :
  trace_ok [Add_caption "X"; Add_caption "Y"; Update (3#2); Draw_op]
  /\ (let '(s, h) := run_hist 1 origin_layout (0, 0)%Z (init white black (5#100))
                       [Add_caption "X"; Add_caption "Y"; Update (3#2); Draw_op] in
      s = run 1 origin_layout (0, 0)%Z (init white black (5#100))
            [Add_caption "X"; Add_caption "Y"; Update (3#2); Draw_op]
      /\ (exists k, captions s = skipn k h
            /\ forall j c, (j < k)%nat -> nth_error h j = Some c ->
                 Message_String.time_read c <= clock s)
      /\ (forall n c, captions s <> [] -> captions s = skipn (S n) h ->
            nth_error h n = Some c -> Message_String.time_read c <= clock s)
      /\ (exists om, Draw.draw origin_layout (0, 0)%Z s
            = (tt, s, om ++ match captions s with
                            | [] => []
                            | c :: _ => [mkDraw (0, 0)%Z (Message_String.text c)
                                                (text_color s) (edge_color s)]
                            end)
            /\ map dc_text om = map Message_String.text (messages s)
            /\ forall j c, nth_error om j = Some c -> dc_pos c = origin_layout j)).
Proof.
  split; [trace_close |].
  apply (captions_fifo 1 origin_layout (0, 0)%Z white black (5#100)
           [Add_caption "X"; Add_caption "Y"; Update (3#2); Draw_op]).
  trace_close.
Defined.

(** * Further properties of [Intro_Screen] *)

Import Intro_Screen Game_Loop.

(** Keys other than Escape, 'n', '1' and '2' fall to the [default] branch:
    no game-loop call at all. *)
Theorem key_event_other_keys_noop (keysym printable : Z) (g : Game_Loop.t)
    (H27 : keysym <> 27%Z) (Hn : keysym <> 110%Z) (H1 : keysym <> 49%Z)
    (H2 : keysym <> 50%Z) :
  key_event keysym printable = [] /\ apply_effects g (key_event keysym printable) = g.
Proof.
  unfold key_event.
  rewrite (proj2 (Z.eqb_neq _ _) H27), (proj2 (Z.eqb_neq _ _) Hn),
          (proj2 (Z.eqb_neq _ _) H1), (proj2 (Z.eqb_neq _ _) H2).
  split; [reflexivity |]. destruct g; reflexivity.
Qed.

(** No key calls [quit()]; with the intro screen on top of the state
    stack, no key grows the stack: afterwards it is unchanged, has lost the
    intro screen, or has a game screen in its place. *)
Theorem key_event_stack_shape (keysym printable : Z) (g : Game_Loop.t)
    (rest : list state_screen) (Htop : states g = Intro :: rest) :
  let g' := apply_effects g (key_event keysym printable) in
  ~ In Quit (key_event keysym printable)
  /\ (states g' = Intro :: rest \/ states g' = rest \/ states g' = Game :: rest)
  /\ (List.length (states g') <= List.length (states g))%nat.
Proof.
  destruct g as [st run wv]; simpl in Htop; subst st.
  unfold key_event.
  destruct (Z.eqb keysym 27);
    [simpl; split; [intros [H | []]; discriminate | split; auto] |].
  destruct (Z.eqb keysym 110);
    [simpl; split; [intros [H | [H | []]]; discriminate | split; auto] |].
  destruct (Z.eqb keysym 49);
    [simpl; split; [intros [H | []]; discriminate | split; auto] |].
  destruct (Z.eqb keysym 50).
  - simpl. split; [intros [H | []]; discriminate | split; auto].
  - simpl. split; [intros [] | split; auto].
Qed.

(** One frame of [Intro_Screen::draw] with the intro screen on top: a
    "New Game" click replaces it by a game screen, an "Exit" click stops
    the loop, and no wave is queued. *)
Theorem intro_draw_frame (new_game_clicked exit_clicked : bool) (g : Game_Loop.t)
    (rest : list state_screen) (Htop : states g = Intro :: rest) :
  let g' := apply_effects g (Intro_Screen.draw new_game_clicked exit_clicked) in
  states g' = (if new_game_clicked then Game :: rest else Intro :: rest)
  /\ running g' = (running g && negb exit_clicked)%bool
  /\ waves g' = waves g.
Proof.
  destruct g as [st run wv]; simpl in Htop; subst st.
  destruct new_game_clicked, exit_clicked; simpl;
    rewrite ?Bool.andb_true_r, ?Bool.andb_false_r; repeat split.
Qed.

Lemma wave_of_bound (f : Z) (t : R) : (-1/10 <= wave_of f t <= 1/10)%R.
Proof.
  unfold wave_of, Rdiv. destruct (SIN_bound (t * IZR f)) as [Hlo Hhi].
  assert (Hpos : (0 <= / 10)%R).
  { apply Rlt_le, Rinv_0_lt_compat, (IZR_lt 0 10). reflexivity. }
  split; apply Rmult_le_compat_r; assumption.
Qed.

(** Only the keys '1' and '2' queue a wave; it lasts 2 and its samples
    [sin(t * f) / 10.0] stay within [-0.1, 0.1]. *)
Theorem key_event_waves (keysym printable f d : Z)
    (Hin : In (Add_wave f d) (key_event keysym printable)) :
  (keysym = 49%Z \/ keysym = 50%Z) /\ d = 2%Z
  /\ forall t, (-1/10 <= wave_of f t <= 1/10)%R.
Proof.
  assert (Hk : (keysym = 49%Z \/ keysym = 50%Z) /\ d = 2%Z).
  { unfold key_event in Hin.
    destruct (Z.eqb keysym 27) eqn:E27; [destruct Hin as [H | []]; discriminate |].
    destruct (Z.eqb keysym 110) eqn:E110;
      [destruct Hin as [H | [H | []]]; discriminate |].
    destruct (Z.eqb keysym 49) eqn:E49.
    - destruct Hin as [H | []]. inversion H; subst.
      split; [left; apply Z.eqb_eq, E49 | reflexivity].
    - destruct (Z.eqb keysym 50) eqn:E50; [| destruct Hin].
      destruct Hin as [H | []]. inversion H; subst.
      split; [right; apply Z.eqb_eq, E50 | reflexivity]. }
  destruct Hk as [Hk Hd]. split; [exact Hk | split; [exact Hd |]].
  intros t. apply wave_of_bound.
Qed.

(** Witnesses for the [Intro_Screen] properties. *)

Lemma key_event_other_keys_noop_witness :
  (65 <> 27 /\ 65 <> 110 /\ 65 <> 49 /\ 65 <> 50)%Z
  /\ key_event 65 97 = []
  /\ apply_effects (Game_Loop.mk [Intro] true []) (key_event 65 97)
     = Game_Loop.mk [Intro] true [].
Proof.
  split; [repeat split; discriminate |].
  apply (key_event_other_keys_noop 65 97 (Game_Loop.mk [Intro] true []));
    discriminate.
Defined.

Lemma key_event_stack_shape_witness :
  states (Game_Loop.mk [Intro; Other 3] true []) = [Intro; Other 3]
  /\ (let g' := apply_effects (Game_Loop.mk [Intro; Other 3] true []) (key_event 110 110) in
      ~ In Quit (key_event 110 110)
      /\ (states g' = [Intro; Other 3] \/ states g' = [Other 3] \/ states g' = [Game; Other 3])
      /\ (List.length (states g') <= 2)%nat).
Proof.
  split; [reflexivity |].
  apply (key_event_stack_shape 110 110 (Game_Loop.mk [Intro; Other 3] true []) [Other 3]).
  reflexivity.
Defined.

Lemma intro_draw_frame_witness :
  states (Game_Loop.mk [Intro] true []) = [Intro]
  /\ (let g' := apply_effects (Game_Loop.mk [Intro] true []) (Intro_Screen.draw true true) in
      states g' = [Game] /\ running g' = (true && negb true)%bool /\ waves g' = []).
Proof.
  split; [reflexivity |].
  apply (intro_draw_frame true true (Game_Loop.mk [Intro] true []) []).
  reflexivity.
Defined.

Lemma key_event_waves_witness :
  In (Add_wave 5000 2) (key_event 49 49)
  /\ ((49 = 49 \/ 49 = 50)%Z /\ 2%Z = 2%Z
      /\ forall t, (-1/10 <= wave_of 5000 t <= 1/10)%R).
Proof.
  split; [left; reflexivity |].
  apply (key_event_waves 49 49 5000 2). left. reflexivity.
Defined.
